(** * sqlitezstd: a read-only SQLite VFS over seekable zstd files

    Shallow embedding of [vfs.go] (the [ZstdVFS] operations [Access],
    [Delete], [FullPathname], [Open]) and of the [ReadSeeker] cursor over
    an [io.ReaderAt] (its [Read] and [Seek] methods), followed by the
    properties the specification states about them. *)

From Stdlib Require Import ZArith Lia List Bool Ascii String.
Import ListNotations.

Local Open Scope string_scope.
Local Open Scope Z_scope.

(* ===================================================================== *)
(** * Part I: definitions                                                 *)
(* ===================================================================== *)

(** ** Go strings

    A Go string is a sequence of bytes; [string] (a list of 8-bit
    characters) is that sequence. *)

(** [strings.HasPrefix(s, prefix)]:
    [len(s) >= len(prefix) && s[:len(prefix)] == prefix]. *)
Definition HasPrefix (s prefix : string) : bool :=
  (String.length prefix <=? String.length s)%nat
  && String.eqb (substring 0 (String.length prefix) s) prefix.

(** [strings.HasSuffix(s, suffix)]:
    [len(s) >= len(suffix) && s[len(s)-len(suffix):] == suffix]. *)
Definition HasSuffix (s suffix : string) : bool :=
  (String.length suffix <=? String.length s)%nat
  && String.eqb
       (substring (String.length s - String.length suffix)
                  (String.length suffix) s)
       suffix.

(** "[s] ends in [suffix]" and "[s] begins with [prefix]", said without
    the library functions. *)
Definition ends_in (s suffix : string) : Prop :=
  exists front, s = front ++ suffix.

Definition begins_with (s prefix : string) : Prop :=
  exists rest, s = prefix ++ rest.

(** The last byte of a string, if it has one. *)
Fixpoint last_byte (s : string) : option ascii :=
  match s with
  | EmptyString => None
  | String c EmptyString => Some c
  | String _ rest => last_byte rest
  end.

(** ** Go integers and errors *)

(** An [int64] is a [Z] in [[-2^63, 2^63)]; arithmetic wraps around. *)
Definition int64_range (z : Z) : Prop := - 2 ^ 63 <= z < 2 ^ 63.

Definition wrap64 (z : Z) : Z := (z + 2 ^ 63) mod 2 ^ 64 - 2 ^ 63.

(** [len(p)] of a slice, as an integer. *)
Definition len {A : Type} (p : list A) : Z := Z.of_nat (List.length p).

(** The [error] values that occur: [io.EOF], the three errors of the
    cursor, the two [sqlite3vfs] errors the VFS returns, and whatever a
    collaborator (a source, the OS, a decoder) reports.  A nil [error] is
    [None]. *)
Inductive error : Type :=
| EOF
| errInvalidSize
| errSeekToInvalidWhence
| errSeekToNegativePosition
| ReadOnlyError
| CantOpenError
| ErrExternal (msg : string).

(** A Go call returning [(value, err)]: either the value or a non-nil error. *)
Inductive result (A : Type) : Type :=
| Ok (a : A)
| Err (e : error).
Arguments Ok {A} a.
Arguments Err {A} e.

Definition is_nil (err : option error) : bool :=
  match err with None => true | Some _ => false end.

(** ** The cursor over a position-addressable source ([ReadSeeker]) *)

(** [io.ReaderAt]: [ReadAt(p, off) (n int, err error)].  The source may
    have state of its own, which is threaded through.  The bytes the call
    stores at the front of [p] are returned as a list; [n] is the length
    of that list. *)
Class io_ReaderAt (T : Type) : Type :=
  ReadAt : T -> list Byte.byte -> Z -> T * (list Byte.byte * option error).

(** What the documentation of [io.ReaderAt] requires of an implementation:
    [0 <= n <= len(p)], and a non-nil error whenever [n < len(p)]. *)
Class ReaderAtContract (T : Type) `{io_ReaderAt T} : Prop := {
  ReadAt_at_most : forall src p off src' data err,
    ReadAt src p off = (src', (data, err)) -> len data <= len p;
  ReadAt_short_has_error : forall src p off src' data err,
    ReadAt src p off = (src', (data, err)) -> len data < len p -> err <> None
}.

(** [type ReadSeeker struct { ReaderAt io.ReaderAt; Size int64; offset int64 }] *)
Record ReadSeeker (T : Type) : Type := {
  ReaderAt : T;
  Size : Z;
  offset : Z
}.
Arguments ReaderAt {T} r.
Arguments Size {T} r.
Arguments offset {T} r.

(** A fresh cursor: the unexported [offset] has its zero value. *)
Definition cursor_over {T : Type} (src : T) (size : Z) : ReadSeeker T :=
  {| ReaderAt := src; Size := size; offset := 0 |}.

Definition set_offset {T : Type} (r : ReadSeeker T) (off : Z) : ReadSeeker T :=
  {| ReaderAt := ReaderAt r; Size := Size r; offset := off |}.

(** The slice expression [p[:n]]: a run-time panic ([None]) when [n] is
    negative or exceeds the slice. *)
Definition slice_to {A : Type} (p : list A) (n : Z) : option (list A) :=
  if (n <? 0) || (len p <? n) then None else Some (firstn (Z.to_nat n) p).

(** What a call of [Read] gives back: the Go results [(n, err)], the bytes
    stored at the front of the caller's buffer, and the cursor afterwards. *)
Definition ReadOutcome (T : Type) : Type :=
  (Z * option error) * (list Byte.byte * ReadSeeker T).

(** [func (r *ReadSeeker) Read(p []byte) (int, error)].  [None] is a
    run-time panic. *)
Definition Read {T : Type} `{io_ReaderAt T}
    (r : ReadSeeker T) (p : list Byte.byte) : option (ReadOutcome T) :=
  if Size r <? 0 then Some ((0, Some errInvalidSize), ([], r))
  else if Size r <=? offset r then Some ((0, Some EOF), ([], r))
  else
    let length := wrap64 (Size r - offset r) in
    match (if length <? len p then slice_to p length else Some p) with
    | None => None
    | Some p =>
        if len p =? 0 then Some ((0, None), ([], r))
        else
          let '(src, (data, err)) := ReadAt (ReaderAt r) p (offset r) in
          let actual := len data in
          let offset' := wrap64 (offset r + actual) in
          let err := if is_nil err && (offset' =? Size r) then Some EOF
                     else err in
          Some ((actual, err),
                (data, {| ReaderAt := src; Size := Size r; offset := offset' |}))
    end.

(** [io.SeekStart], [io.SeekCurrent], [io.SeekEnd]. *)
Definition SeekStart : Z := 0.
Definition SeekCurrent : Z := 1.
Definition SeekEnd : Z := 2.

(** [func (r *ReadSeeker) Seek(offset int64, whence int) (int64, error)]:
    the Go results and the cursor afterwards. *)
Definition Seek {T : Type} (r : ReadSeeker T) (offset_arg whence : Z)
    : (Z * option error) * ReadSeeker T :=
  if Size r <? 0 then ((0, Some errInvalidSize), r)
  else
    let target :=
      if whence =? SeekStart then Some offset_arg
      else if whence =? SeekCurrent then Some (wrap64 (offset_arg + offset r))
      else if whence =? SeekEnd then Some (wrap64 (offset_arg + Size r))
      else None in
    match target with
    | None => ((0, Some errSeekToInvalidWhence), r)
    | Some offset_arg =>
        if offset_arg <? 0 then ((0, Some errSeekToNegativePosition), r)
        else ((offset_arg, None), set_offset r offset_arg)
    end.

(** A run of [Read] calls, one per buffer, on the same cursor: the Go
    results of each call and the cursor at the end. *)
Fixpoint Reads {T : Type} `{io_ReaderAt T}
    (r : ReadSeeker T) (ps : list (list Byte.byte))
    : option (list (Z * option error) * ReadSeeker T) :=
  match ps with
  | [] => Some ([], r)
  | p :: ps =>
      match Read r p with
      | None => None
      | Some (res, (_, r)) =>
          match Reads r ps with
          | None => None
          | Some (rest, r) => Some (res :: rest, r)
          end
      end
  end.

(** The state of a cursor that its methods can produce: both fields are
    [int64] values and [offset], which starts at zero, is never negative. *)
Definition cursor_ok {T : Type} (r : ReadSeeker T) : Prop :=
  int64_range (Size r) /\ 0 <= offset r < 2 ^ 63.

(** The part of the caller's buffer that [Read] hands to [ReadAt] when
    the cursor is before [Size]: all of [p], or [p[:Size-offset]] when [p]
    would reach beyond [Size]. *)
Definition request {T : Type} (r : ReadSeeker T) (p : list Byte.byte)
    : list Byte.byte :=
  firstn (Z.to_nat (Size r - offset r)) p.

(** An in-memory source, with the positional-read behaviour of
    [bytes.Reader.ReadAt]; it serves as a concrete [io.ReaderAt]. *)
Definition MemSource : Type := list Byte.byte.

#[export] Instance MemSource_ReadAt : io_ReaderAt MemSource :=
  fun src p off =>
    if off <? 0 then (src, ([], Some (ErrExternal "negative offset")))
    else if len src <=? off then (src, ([], Some EOF))
    else
      let data := firstn (List.length p) (skipn (Z.to_nat off) src) in
      (src, (data, if len data <? len p then Some EOF else None)).

(** [Seek r off whence] goes to position [pos]: refused as negative when
    [pos < 0], otherwise [pos] becomes the offset and is returned. *)
Definition seeks_to {T : Type} (r : ReadSeeker T) (off whence pos : Z) : Prop :=
  (pos < 0 -> Seek r off whence = ((0, Some errSeekToNegativePosition), r))
  /\ (0 <= pos -> Seek r off whence = ((pos, None), set_offset r pos)).

(** A five-byte source ("abcde") and a fresh cursor over all of it. *)
Definition test_source : MemSource :=
  [Byte.x61; Byte.x62; Byte.x63; Byte.x64; Byte.x65].

Definition test_cursor : ReadSeeker MemSource := cursor_over test_source 5.

(** A caller's buffer of [n] zero bytes. *)
Definition buffer (n : nat) : list Byte.byte := repeat Byte.x00 n.

(** ** The VFS ([vfs.go]) *)

(** [sqlite3vfs.OpenFlag] and [sqlite3vfs.AccessFlag] are Go [int]s holding
    bit sets; [sqlite3vfs.OpenReadOnly] is SQLite's [SQLITE_OPEN_READONLY]. *)
Definition OpenFlag : Type := Z.
Definition AccessFlag : Type := Z.
Definition OpenReadOnly : OpenFlag := 1.

(** [func (z *ZstdVFS) Access(name string, flags AccessFlag) (bool, error)] *)
Definition Access (name : string) (flags : AccessFlag) : bool * option error :=
  if HasSuffix name "-wal" || HasSuffix name "-journal" then (false, None)
  else (true, None).

(** [func (z *ZstdVFS) FullPathname(name string) string] *)
Definition FullPathname (name : string) : string := name.

(** The [io.ReadSeeker] that [Open] holds in [reader]: the HTTP range
    reader of [ranger.NewReader], or the file of [os.Open]. *)
Inductive Reader (R F : Type) : Type :=
| HttpReader (r : R)
| FileReader (f : F).
Arguments HttpReader {R F} r.
Arguments FileReader {R F} f.

(** The [io.Closer] that [Open] holds in [closer]: [io.NopCloser(reader)]
    for an HTTP reader, the file itself for a local one. *)
Inductive Closer (R F : Type) : Type :=
| NopCloser (r : R)
| FileCloser (f : F).
Arguments NopCloser {R F} r.
Arguments FileCloser {R F} f.

(** The collaborators of [Open], none of them part of this repository:
    [url.Parse], [ranger.NewReader] over a [ranger.HTTPRanger], [os.Open],
    [zstd.NewReader(nil)] and [seekable.NewReader].  Their values are
    opaque; all but [url.Parse] act on the outside world. *)
Class Externals : Type := {
  URL : Type;
  RangerReader : Type;
  OsFile : Type;
  Decoder : Type;
  SeekableReader : Type;
  World : Type;
  url_Parse : string -> result URL;
  ranger_NewReader : URL -> World -> result RangerReader * World;
  os_Open : string -> World -> result OsFile * World;
  zstd_NewReader : World -> result Decoder * World;
  seekable_NewReader :
    Reader RangerReader OsFile -> Decoder -> World
    -> result SeekableReader * World
}.

(** The calls [Open] can make to its collaborators, with their arguments. *)
Inductive Call `{Externals} : Type :=
| CallUrlParse (name : string)
| CallRangerNewReader (uri : URL)
| CallOsOpen (name : string)
| CallZstdNewReader
| CallSeekableNewReader (reader : Reader RangerReader OsFile) (decoder : Decoder).

(** What a VFS method runs against: the outside world and the record of
    the collaborator calls made so far, oldest first. *)
Record State `{Externals} : Type := {
  world : World;
  calls : list Call
}.

(** [type ZstdFile struct { decoder; closer; seekable }], as [Open] fills it. *)
Record ZstdFile `{Externals} : Type := {
  decoder : Decoder;
  closer : Closer RangerReader OsFile;
  seekable : SeekableReader
}.

(** A computation of a VFS method: it runs against the state and returns
    a value or a non-nil error. *)
Definition VFS `{Externals} (A : Type) : Type := State -> result A * State.

Definition ret `{Externals} {A : Type} (a : A) : VFS A :=
  fun s => (Ok a, s).

(** Sequencing: a non-nil error ends the method at once. *)
Definition bind `{Externals} {A B : Type} (m : VFS A) (k : A -> VFS B) : VFS B :=
  fun s =>
    match m s with
    | (Ok a, s') => k a s'
    | (Err e, s') => (Err e, s')
    end.

Declare Scope vfs_scope.
Delimit Scope vfs_scope with vfs.
Notation "x <- m ;; k" := (bind m (fun x => k))
  (at level 100, m at next level, right associativity) : vfs_scope.
Notation "' pat <- m ;; k" := (bind m (fun x => match x with pat => k end))
  (at level 100, pat pattern, m at next level, right associativity) : vfs_scope.

(** A call to a collaborator: it acts on the world and is recorded. *)
Definition external `{Externals} {A : Type}
    (c : Call) (f : World -> result A * World) : VFS A :=
  fun s =>
    let (r, w) := f (world s) in
    (r, {| world := w; calls := calls s ++ [c] |}).

(** [if err != nil { return nil, 0, sqlite3vfs.CantOpenError }] *)
Definition orCantOpen `{Externals} {A : Type} (m : VFS A) : VFS A :=
  fun s =>
    match m s with
    | (Ok a, s') => (Ok a, s')
    | (Err _, s') => (Err CantOpenError, s')
    end.

(** The body of [Open] up to its final [return]: the file and the flags
    of the successful return, or the error of an early one. *)
Definition Open_body `{Externals} (name : string) (flags : OpenFlag)
    : VFS (ZstdFile * OpenFlag) :=
  (' (reader, closer) <-
     (if HasPrefix name "http://" || HasPrefix name "https://" then
        uri <- orCantOpen
                 (external (CallUrlParse name) (fun w => (url_Parse name, w))) ;;
        reader <- orCantOpen
                    (external (CallRangerNewReader uri) (ranger_NewReader uri)) ;;
        ret (HttpReader reader, NopCloser reader)
      else
        reader <- orCantOpen (external (CallOsOpen name) (os_Open name)) ;;
        ret (FileReader reader, FileCloser reader)) ;;
   decoder <- orCantOpen (external CallZstdNewReader zstd_NewReader) ;;
   seekable <- orCantOpen
                 (external (CallSeekableNewReader reader decoder)
                           (seekable_NewReader reader decoder)) ;;
   ret ({| decoder := decoder; closer := closer; seekable := seekable |},
        Z.lor flags OpenReadOnly))%vfs.

(** The Go results of [Open]: [(sqlite3vfs.File, sqlite3vfs.OpenFlag, error)]. *)
Definition OpenResult `{Externals} : Type :=
  option ZstdFile * OpenFlag * option error.

(** [func (z *ZstdVFS) Open(name string, flags OpenFlag)
      (sqlite3vfs.File, sqlite3vfs.OpenFlag, error)] *)
Definition Open `{Externals} (name : string) (flags : OpenFlag)
    : State -> OpenResult * State :=
  fun s =>
    match Open_body name flags s with
    | (Ok (file, flags), s') => ((Some file, flags, None), s')
    | (Err e, s') => ((None, 0, Some e), s')
    end.

(** [func (z *ZstdVFS) Delete(name string, dirSync bool) error] *)
Definition Delete `{Externals} (name : string) (dirSync : bool)
    : State -> option error * State :=
  fun s => (Some ReadOnlyError, s).

(** The source step of [Open] has succeeded from state [s], giving
    [reader] and [closer] and leaving the world [w]: through [url.Parse]
    and [ranger.NewReader] for an HTTP(S) name, through [os.Open] for any
    other. *)
Inductive SourceBuilt `{Externals} (name : string) (s : State)
    : Reader RangerReader OsFile -> Closer RangerReader OsFile -> World -> Prop :=
| SourceHttp uri reader w :
    HasPrefix name "http://" || HasPrefix name "https://" = true ->
    url_Parse name = Ok uri ->
    ranger_NewReader uri (world s) = (Ok reader, w) ->
    SourceBuilt name s (HttpReader reader) (NopCloser reader) w
| SourceLocal file w :
    HasPrefix name "http://" || HasPrefix name "https://" = false ->
    os_Open name (world s) = (Ok file, w) ->
    SourceBuilt name s (FileReader file) (FileCloser file) w.

(** Some step of [Open name] fails when run from state [s]. *)
Inductive OpenStepFails `{Externals} (name : string) (s : State) : Prop :=
| UrlParseFails e :
    HasPrefix name "http://" || HasPrefix name "https://" = true ->
    url_Parse name = Err e ->
    OpenStepFails name s
| HttpSourceFails uri e w :
    HasPrefix name "http://" || HasPrefix name "https://" = true ->
    url_Parse name = Ok uri ->
    ranger_NewReader uri (world s) = (Err e, w) ->
    OpenStepFails name s
| LocalSourceFails e w :
    HasPrefix name "http://" || HasPrefix name "https://" = false ->
    os_Open name (world s) = (Err e, w) ->
    OpenStepFails name s
| DecoderFails reader closer w e w' :
    SourceBuilt name s reader closer w ->
    zstd_NewReader w = (Err e, w') ->
    OpenStepFails name s
| SeekableReaderFails reader closer w decoder w' e w'' :
    SourceBuilt name s reader closer w ->
    zstd_NewReader w = (Ok decoder, w') ->
    seekable_NewReader reader decoder w' = (Err e, w'') ->
    OpenStepFails name s.

(** A small outside world for concrete runs: the paths and URLs that can
    be read.  URLs ending in a lone [%] do not parse, and only names
    ending in [.zst] hold a seekable zstd stream. *)
Definition readable (name : string) (w : list string) : bool :=
  existsb (String.eqb name) w.

Definition reader_name (reader : Reader string string) : string :=
  match reader with
  | HttpReader uri => uri
  | FileReader path => path
  end.

#[export] Instance TestExternals : Externals := {|
  URL := string;
  RangerReader := string;
  OsFile := string;
  Decoder := unit;
  SeekableReader := Reader string string;
  World := list string;
  url_Parse := fun name =>
    if HasSuffix name "%" then Err (ErrExternal "invalid URL escape")
    else Ok name;
  ranger_NewReader := fun uri w =>
    (if readable uri w then Ok uri else Err (ErrExternal "not found"), w);
  os_Open := fun name w =>
    (if readable name w then Ok name
     else Err (ErrExternal "no such file or directory"), w);
  zstd_NewReader := fun w => (Ok tt, w);
  seekable_NewReader := fun reader _ w =>
    (if HasSuffix (reader_name reader) ".zst" then Ok reader
     else Err (ErrExternal "not a seekable zstd stream"), w)
|}.

Definition test_world : list string :=
  ["test.sqlite.zst"; "plain.sqlite"; "http://example.com/test.sqlite.zst"].

Definition test_state : State := {| world := test_world; calls := [] |}.

(** ** Sources with known content, and runs of method calls *)

(** [content[off : off+n]], cut where [content] ends. *)
Definition slice (content : list Byte.byte) (off n : Z) : list Byte.byte :=
  firstn (Z.to_nat n) (skipn (Z.to_nat off) content).

(** The source serves [content]: in every state satisfying [good], a
    positional read of a non-empty buffer that lies inside [content]
    fills the buffer with the bytes at that place and reports no error,
    and leaves the source in a [good] state. *)
Definition Serves {T : Type} `{io_ReaderAt T}
    (content : list Byte.byte) (good : T -> Prop) : Prop :=
  forall src p off,
    good src -> p <> [] -> 0 <= off -> off + len p <= len content ->
    exists src',
      ReadAt src p off = (src', (slice content off (len p), None))
      /\ good src'.

(** A run of [Read] calls, one per buffer, on the same cursor: the bytes
    the calls return, one after the other, and the cursor at the end. *)
Fixpoint ReadsData {T : Type} `{io_ReaderAt T}
    (r : ReadSeeker T) (ps : list (list Byte.byte))
    : option (list Byte.byte * ReadSeeker T) :=
  match ps with
  | [] => Some ([], r)
  | p :: ps =>
      match Read r p with
      | None => None
      | Some (_, (data, r)) =>
          match ReadsData r ps with
          | None => None
          | Some (rest, r) => Some ((data ++ rest)%list, r)
          end
      end
  end.

(** The room of a list of buffers. *)
Definition total_len (ps : list (list Byte.byte)) : Z :=
  fold_right (fun p acc => len p + acc) 0 ps.

(** A method call on a cursor, and runs of such calls from a cursor;
    [None] is a run-time panic. *)
Inductive Op : Type :=
| OpRead (p : list Byte.byte)
| OpSeek (offset_arg whence : Z).

Definition step {T : Type} `{io_ReaderAt T} (r : ReadSeeker T) (op : Op)
    : option (ReadSeeker T) :=
  match op with
  | OpRead p =>
      match Read r p with
      | None => None
      | Some (_, (_, r)) => Some r
      end
  | OpSeek offset_arg whence => Some (snd (Seek r offset_arg whence))
  end.

Fixpoint run {T : Type} `{io_ReaderAt T} (r : ReadSeeker T) (ops : list Op)
    : option (ReadSeeker T) :=
  match ops with
  | [] => Some r
  | op :: ops =>
      match step r op with
      | None => None
      | Some r => run r ops
      end
  end.

(** The arguments of the call are values of their Go types: the offset
    of a [Seek] is an [int64]. *)
Definition op_typed (op : Op) : Prop :=
  match op with
  | OpRead _ => True
  | OpSeek offset_arg _ => int64_range offset_arg
  end.

(* ===================================================================== *)
(** * Part II: properties                                                 *)
(* ===================================================================== *)

(** ** Strings *)

Lemma length_app (a b : string) :
  String.length (a ++ b) = (String.length a + String.length b)%nat.
Proof.
  induction a as [|c a IH]; cbn; [reflexivity|]. now rewrite IH.
Qed.

Lemma substring_whole (s : string) :
  substring 0 (String.length s) s = s.
Proof.
  induction s as [|c s IH]; cbn; [reflexivity|]. now rewrite IH.
Qed.

Lemma substring_head (a b : string) :
  substring 0 (String.length a) (a ++ b) = a.
Proof.
  induction a as [|c a IH]; cbn.
  - now destruct b.
  - now rewrite IH.
Qed.

Lemma substring_tail (a b : string) :
  substring (String.length a) (String.length b) (a ++ b) = b.
Proof.
  induction a as [|c a IH]; cbn.
  - apply substring_whole.
  - exact IH.
Qed.

(** Cutting a string at any index inside it loses nothing. *)
Lemma substring_split (s : string) :
  forall n, (n <= String.length s)%nat ->
    s = substring 0 n s ++ substring n (String.length s - n) s.
Proof.
  induction s as [|c s IH]; intros [|n] Hn; cbn in *.
  - reflexivity.
  - lia.
  - now rewrite substring_whole.
  - rewrite <- IH by lia. reflexivity.
Qed.

Lemma HasSuffix_ends_in (s suffix : string) :
  HasSuffix s suffix = true <-> ends_in s suffix.
Proof.
  unfold HasSuffix, ends_in. rewrite andb_true_iff, Nat.leb_le, String.eqb_eq.
  split.
  - intros [Hlen Hsub].
    exists (substring 0 (String.length s - String.length suffix) s).
    pose proof (substring_split s (String.length s - String.length suffix))
      as Hcut.
    replace (String.length s - (String.length s - String.length suffix))%nat
      with (String.length suffix) in Hcut by lia.
    rewrite Hsub in Hcut. apply Hcut. lia.
  - intros [front ->]. rewrite length_app. split; [lia|].
    replace (String.length front + String.length suffix
             - String.length suffix)%nat
      with (String.length front) by lia.
    apply substring_tail.
Qed.

Lemma HasPrefix_begins_with (s prefix : string) :
  HasPrefix s prefix = true <-> begins_with s prefix.
Proof.
  unfold HasPrefix, begins_with. rewrite andb_true_iff, Nat.leb_le, String.eqb_eq.
  split.
  - intros [Hlen Hsub].
    exists (substring (String.length prefix)
                      (String.length s - String.length prefix) s).
    rewrite <- Hsub at 1. now apply substring_split.
  - intros [rest ->]. rewrite length_app. split; [lia|].
    apply substring_head.
Qed.

Lemma HasSuffix_false (s suffix : string) :
  HasSuffix s suffix = false <-> ~ ends_in s suffix.
Proof.
  rewrite <- HasSuffix_ends_in. now destruct (HasSuffix s suffix).
Qed.

Lemma HasPrefix_false (s prefix : string) :
  HasPrefix s prefix = false <-> ~ begins_with s prefix.
Proof.
  rewrite <- HasPrefix_begins_with. now destruct (HasPrefix s prefix).
Qed.

Lemma last_byte_app (a s : string) :
  s <> "" -> last_byte (a ++ s) = last_byte s.
Proof.
  intros Hs. induction a as [|c a IH]; cbn; [reflexivity|].
  rewrite <- IH. destruct (a ++ s) eqn:E; [|reflexivity].
  destruct a; cbn in E; [contradiction | discriminate].
Qed.

Lemma ends_in_last_byte (s suffix : string) :
  suffix <> "" -> ends_in s suffix -> last_byte s = last_byte suffix.
Proof.
  intros Hne [front ->]. now apply last_byte_app.
Qed.

(** A name ending in [-shm] ends neither in [-wal] nor in [-journal]. *)
Lemma shm_is_no_wal_or_journal (name : string) :
  ends_in name "-shm" ->
  HasSuffix name "-wal" = false /\ HasSuffix name "-journal" = false.
Proof.
  intros Hshm.
  apply ends_in_last_byte in Hshm; [|discriminate].
  split; apply HasSuffix_false; intros Hother;
    apply ends_in_last_byte in Hother; try discriminate;
    rewrite Hshm in Hother; discriminate.
Qed.

(** ** [Access] *)

(** C4: [Access] never fails; it answers false exactly for the names that
    end in "-wal" or "-journal", and true for every other name. *)
Theorem Access_false_iff_wal_or_journal (name : string) (flags : AccessFlag) :
  snd (Access name flags) = None
  /\ (fst (Access name flags) = false
      <-> ends_in name "-wal" \/ ends_in name "-journal")
  /\ (fst (Access name flags) = true
      <-> ~ (ends_in name "-wal" \/ ends_in name "-journal")).
Proof.
  unfold Access. rewrite <- !HasSuffix_ends_in, <- orb_true_iff.
  destruct (HasSuffix name "-wal" || HasSuffix name "-journal"); cbn;
    intuition congruence.
Qed.

(** C1, as the code has it: for every name ending in "-wal" or "-journal"
    [Access] returns false; the blackout covers these two suffixes only,
    and for a name ending in "-shm" [Access] returns true. *)
Theorem Access_blackout_wal_journal (name : string) (flags : AccessFlag) :
  (ends_in name "-wal" \/ ends_in name "-journal" ->
   Access name flags = (false, None))
  /\ (ends_in name "-shm" -> Access name flags = (true, None)).
Proof.
  unfold Access. split.
  - rewrite <- !HasSuffix_ends_in, <- orb_true_iff. now intros ->.
  - intros Hshm. destruct (shm_is_no_wal_or_journal name Hshm) as [-> ->].
    reflexivity.
Qed.

Lemma Access_blackout_wal_journal_witness :
  Access "test.sqlite-journal" 0 = (false, None)
  /\ Access "test.sqlite-shm" 0 = (true, None).
Proof.
  split.
  - apply (proj1 (Access_blackout_wal_journal "test.sqlite-journal" 0)).
    right. exists "test.sqlite". reflexivity.
  - apply (proj2 (Access_blackout_wal_journal "test.sqlite-shm" 0)).
    exists "test.sqlite". reflexivity.
Defined.

(** C1 as stated fails: "test.sqlite-shm" ends in "-shm", and [Access]
    answers true for it. *)
Lemma Access_shm_not_rejected :
  ends_in "test.sqlite-shm" "-shm"
  /\ Access "test.sqlite-shm" 0 = (true, None)
  /\ ~ (forall name flags,
          ends_in name "-wal" \/ ends_in name "-journal" \/ ends_in name "-shm" ->
          fst (Access name flags) = false).
Proof.
  assert (Hends : ends_in "test.sqlite-shm" "-shm")
    by (exists "test.sqlite"; reflexivity).
  repeat split; [exact Hends | ].
  intros Hall. specialize (Hall "test.sqlite-shm" 0 (or_intror (or_intror Hends))).
  discriminate Hall.
Qed.

(** ** [Open] and [Delete] *)

(** Runs [Open] symbolically: every collaborator call is split into its
    success and its failure. *)
Ltac run_Open :=
  unfold Open, Open_body, bind, orCantOpen, external, ret;
  repeat (cbn;
          match goal with
          | |- context [if ?b then _ else _] =>
              lazymatch b with
              | context [match _ with _ => _ end] => fail
              | _ => destruct b eqn:?
              end
          | |- context [match ?x with _ => _ end] =>
              lazymatch x with
              | context [match _ with _ => _ end] => fail
              | _ => destruct x eqn:?
              end
          end);
  cbn.

Lemma land_lor_read_only (flags : OpenFlag) :
  Z.land (Z.lor flags OpenReadOnly) OpenReadOnly = OpenReadOnly.
Proof.
  apply Z.bits_inj'. intros n _.
  rewrite Z.land_spec, Z.lor_spec.
  destruct (Z.testbit OpenReadOnly n);
    [now rewrite orb_true_r | apply andb_false_r].
Qed.

(** [Open] has two kinds of result only: a file with the requested flags
    and read-only, or no file, flags zero and [CantOpenError]. *)
Lemma Open_result_shape `{Externals} (name : string) (flags : OpenFlag) (s : State) :
  (exists file, fst (Open name flags s)
                = (Some file, Z.lor flags OpenReadOnly, None))
  \/ fst (Open name flags s) = (None, 0, Some CantOpenError).
Proof.
  run_Open; eauto.
Qed.

(** C2: when [Open] succeeds, whatever the name and the requested flags,
    it returns a file, and the returned flags are the requested ones with
    the read-only flag set. *)
Theorem Open_flags_include_read_only `{Externals}
    (name : string) (flags : OpenFlag) (s s' : State)
    (file : option ZstdFile) (flags' : OpenFlag) :
  Open name flags s = ((file, flags', None), s') ->
  file <> None
  /\ flags' = Z.lor flags OpenReadOnly
  /\ Z.land flags' OpenReadOnly = OpenReadOnly.
Proof.
  intros Hrun.
  destruct (Open_result_shape name flags s) as [[f Hok] | Hfail];
    rewrite Hrun in *; cbn in *.
  - injection Hok as -> ->. repeat split; [discriminate|].
    apply land_lor_read_only.
  - discriminate Hfail.
Qed.

Lemma Open_flags_include_read_only_witness :
  exists file,
    Open "test.sqlite.zst" 0 test_state
    = ((Some file, 1, None),
       {| world := test_world;
          calls := [CallOsOpen "test.sqlite.zst"; CallZstdNewReader;
                    CallSeekableNewReader (FileReader "test.sqlite.zst") tt] |})
    /\ Z.land 1 OpenReadOnly = OpenReadOnly.
Proof.
  eexists. split; [reflexivity|].
  eapply (Open_flags_include_read_only "test.sqlite.zst" 0 test_state).
  reflexivity.
Defined.

(** C8: [Delete] returns the read-only error for every name and [dirSync],
    and leaves the world as it was, without a single call to a
    collaborator. *)
Theorem Delete_is_read_only `{Externals}
    (name : string) (dirSync : bool) (s : State) :
  Delete name dirSync s = (Some ReadOnlyError, s).
Proof. reflexivity. Qed.

(** Rewrites with the recorded answers of the collaborators. *)
Ltac answer :=
  repeat match goal with
         | H : _ = _ |- _ => rewrite H; cbn
         end.

(** C9: whichever step of [Open] fails (parsing the URL, constructing the
    HTTP or the local source, creating the decoder, constructing the
    seekable reader over the source), [Open] returns no file, flags zero
    and [CantOpenError]. *)
Theorem Open_failure_is_CantOpen `{Externals}
    (name : string) (flags : OpenFlag) (s : State) :
  OpenStepFails name s ->
  fst (Open name flags s) = (None, 0, Some CantOpenError).
Proof.
  intros Hfails.
  destruct Hfails;
    try match goal with Hsrc : SourceBuilt _ _ _ _ _ |- _ => destruct Hsrc end;
    unfold Open, Open_body, bind, orCantOpen, external, ret; cbn;
    answer; reflexivity.
Qed.

(** The converse: [Open] reports [CantOpenError] only when a step failed. *)
Lemma Open_CantOpen_only_on_failure `{Externals}
    (name : string) (flags : OpenFlag) (s : State) :
  snd (fst (Open name flags s)) <> None -> OpenStepFails name s.
Proof.
  run_Open; intros Herr; try contradiction;
    eauto using OpenStepFails, SourceBuilt.
Qed.

Lemma Open_failure_is_CantOpen_witness :
  OpenStepFails "missing.sqlite" test_state
  /\ fst (Open "missing.sqlite" 0 test_state) = (None, 0, Some CantOpenError).
Proof.
  assert (Hfails : OpenStepFails "missing.sqlite" test_state).
  { eapply LocalSourceFails; reflexivity. }
  split; [exact Hfails|].
  exact (Open_failure_is_CantOpen "missing.sqlite" 0 test_state Hfails).
Defined.

(** Two recorded answers to the same call are the same answer. *)
Ltac agree :=
  repeat match goal with
         | H : Ok _ = Ok _ |- _ => inversion H; subst; clear H
         | H : (_, _) = (_, _) |- _ => inversion H; subst; clear H
         | H : ?call = _, H' : ?call = _ |- _ => rewrite H in H'
         end.

(** C3: [Open] selects the source by scheme.  The calls it makes are
    added to the record in order.  For a name beginning with "http://" or
    "https://" it parses the name as a URL and constructs the HTTP range
    reader over it, and never opens a local file; for any other name it
    opens the name as a local path and makes no HTTP reader.  In both
    cases, the source made, it creates the decoder, then the seekable
    reader over that very source, and returns the [ZstdFile] holding the
    decoder, the closer of the source and the seekable reader. *)
Theorem Open_selects_source_by_scheme `{Externals}
    (name : string) (flags : OpenFlag) (s : State) :
  exists made : list Call,
    calls (snd (Open name flags s)) = (calls s ++ made)%list
    /\ (begins_with name "http://" \/ begins_with name "https://" ->
        nth_error made 0 = Some (CallUrlParse name)
        /\ (forall path, ~ In (CallOsOpen path) made)
        /\ (forall uri, url_Parse name = Ok uri ->
            nth_error made 1 = Some (CallRangerNewReader uri)
            /\ forall reader w, ranger_NewReader uri (world s) = (Ok reader, w) ->
               nth_error made 2 = Some CallZstdNewReader
               /\ forall decoder w', zstd_NewReader w = (Ok decoder, w') ->
                  nth_error made 3
                  = Some (CallSeekableNewReader (HttpReader reader) decoder)
                  /\ forall seekable w'',
                     seekable_NewReader (HttpReader reader) decoder w'
                     = (Ok seekable, w'') ->
                     fst (Open name flags s)
                     = (Some {| decoder := decoder;
                                closer := NopCloser reader;
                                seekable := seekable |},
                        Z.lor flags OpenReadOnly, None)))
    /\ (~ (begins_with name "http://" \/ begins_with name "https://") ->
        nth_error made 0 = Some (CallOsOpen name)
        /\ (forall url, ~ In (CallUrlParse url) made)
        /\ (forall uri, ~ In (CallRangerNewReader uri) made)
        /\ (forall file w, os_Open name (world s) = (Ok file, w) ->
            nth_error made 1 = Some CallZstdNewReader
            /\ forall decoder w', zstd_NewReader w = (Ok decoder, w') ->
               nth_error made 2
               = Some (CallSeekableNewReader (FileReader file) decoder)
               /\ forall seekable w'',
                  seekable_NewReader (FileReader file) decoder w'
                  = (Ok seekable, w'') ->
                  fst (Open name flags s)
                  = (Some {| decoder := decoder;
                             closer := FileCloser file;
                             seekable := seekable |},
                     Z.lor flags OpenReadOnly, None))).
Proof.
  assert (Hscheme : begins_with name "http://" \/ begins_with name "https://"
                    <-> HasPrefix name "http://" || HasPrefix name "https://" = true)
    by (now rewrite orb_true_iff, !HasPrefix_begins_with).
  run_Open; rewrite <- ?app_assoc; cbn; eexists; (split; [reflexivity|]).
  all: rewrite !Hscheme.
  all: split; intros Hs; try congruence.
  all: repeat (intros; split); intros; cbn in *; subst.
  all: agree; try congruence; intuition congruence.
Qed.


(** Two concrete runs: a local path and an HTTP URL. *)
Example Open_local_run :
  Open "test.sqlite.zst" 0 test_state
  = ((Some {| decoder := tt;
              closer := FileCloser "test.sqlite.zst";
              seekable := FileReader "test.sqlite.zst" |}, 1, None),
     {| world := test_world;
        calls := [CallOsOpen "test.sqlite.zst"; CallZstdNewReader;
                  CallSeekableNewReader (FileReader "test.sqlite.zst") tt] |}).
Proof. reflexivity. Qed.

Example Open_http_run :
  Open "http://example.com/test.sqlite.zst" 6 test_state
  = ((Some {| decoder := tt;
              closer := NopCloser "http://example.com/test.sqlite.zst";
              seekable := HttpReader "http://example.com/test.sqlite.zst" |},
      7, None),
     {| world := test_world;
        calls := [CallUrlParse "http://example.com/test.sqlite.zst";
                  CallRangerNewReader "http://example.com/test.sqlite.zst";
                  CallZstdNewReader;
                  CallSeekableNewReader
                    (HttpReader "http://example.com/test.sqlite.zst") tt] |}).
Proof. reflexivity. Qed.

(** ** The cursor *)

Lemma wrap64_id (z : Z) : int64_range z -> wrap64 z = z.
Proof.
  unfold int64_range, wrap64. intros Hz.
  rewrite Z.mod_small; lia.
Qed.

Lemma len_nonneg {A : Type} (p : list A) : 0 <= len p.
Proof. unfold len. lia. Qed.

Lemma len_zero_nil {A : Type} (p : list A) : len p = 0 -> p = [].
Proof.
  unfold len. destruct p; cbn; [reflexivity | lia].
Qed.

#[export] Instance MemSource_contract : ReaderAtContract MemSource.
Proof.
  split; unfold ReadAt, MemSource_ReadAt; intros src p off src' data err;
    destruct (off <? 0); [| destruct (len src <=? off) | | destruct (len src <=? off)];
    intros Hcall; injection Hcall as <- <- <-;
    try (cbn; apply len_nonneg); try discriminate.
  - unfold len. rewrite length_firstn. lia.
  - intros Hshort. apply Z.ltb_lt in Hshort. now rewrite Hshort.
Qed.

(** [Seek] either fails and leaves the cursor alone, or moves it to the
    non-negative position it returns. *)
Lemma Seek_outcome {T : Type} (r : ReadSeeker T) (off whence : Z) :
  (exists e, Seek r off whence = ((0, Some e), r))
  \/ (exists pos, 0 <= pos /\ 0 <= Size r
                  /\ Seek r off whence = ((pos, None), set_offset r pos)).
Proof.
  unfold Seek.
  destruct (Z.ltb_spec (Size r) 0); [eauto|].
  destruct (whence =? SeekStart); [|destruct (whence =? SeekCurrent);
                                     [|destruct (whence =? SeekEnd)]];
    eauto;
    match goal with
    | |- context [?pos <? 0] => destruct (Z.ltb_spec pos 0); eauto 6
    end.
Qed.

Lemma Read_invalid_Size {T : Type} `{io_ReaderAt T}
    (r : ReadSeeker T) (p : list Byte.byte) :
  Size r < 0 -> Read r p = Some ((0, Some errInvalidSize), ([], r)).
Proof.
  intros Hsize. unfold Read.
  destruct (Z.ltb_spec (Size r) 0); [reflexivity | lia].
Qed.

Lemma Read_at_or_past_Size {T : Type} `{io_ReaderAt T}
    (r : ReadSeeker T) (p : list Byte.byte) :
  0 <= Size r -> Size r <= offset r ->
  Read r p = Some ((0, Some EOF), ([], r)).
Proof.
  intros Hsize Hpast. unfold Read.
  destruct (Z.ltb_spec (Size r) 0); [lia|].
  destruct (Z.leb_spec (Size r) (offset r)); [reflexivity | lia].
Qed.

Lemma len_request {T : Type} (r : ReadSeeker T) (p : list Byte.byte) :
  offset r < Size r -> len (request r p) = Z.min (len p) (Size r - offset r).
Proof.
  intros Hin. unfold request, len. rewrite length_firstn. lia.
Qed.

(** Before [Size], [Read] with a non-empty buffer is one [ReadAt] call for
    [request r p] at the cursor's offset; no slice expression panics. *)
Lemma Read_before_Size {T : Type} `{io_ReaderAt T}
    (r : ReadSeeker T) (p : list Byte.byte) :
  cursor_ok r -> offset r < Size r -> p <> [] ->
  Read r p =
  let '(src, (data, err)) := ReadAt (ReaderAt r) (request r p) (offset r) in
  let offset' := wrap64 (offset r + len data) in
  Some ((len data,
         if is_nil err && (offset' =? Size r) then Some EOF else err),
        (data, {| ReaderAt := src; Size := Size r; offset := offset' |})).
Proof.
  intros [Hsize Hoff] Hin Hp. unfold Read.
  destruct (Z.ltb_spec (Size r) 0); [unfold int64_range in Hsize; lia|].
  destruct (Z.leb_spec (Size r) (offset r)); [lia|].
  rewrite wrap64_id by (unfold int64_range in *; lia).
  assert (Hlen : 0 < len p).
  { pose proof (len_nonneg p). destruct (Z.eq_dec (len p) 0) as [E|]; [|lia].
    now apply len_zero_nil in E. }
  destruct (Z.ltb_spec (Size r - offset r) (len p)) as [Hcut | Hfit].
  - unfold slice_to.
    destruct (Z.ltb_spec (Size r - offset r) 0); [lia|].
    destruct (Z.ltb_spec (len p) (Size r - offset r)); [lia|]. cbn.
    fold (request r p).
    destruct (Z.eqb_spec (len (request r p)) 0) as [E|_]; [|reflexivity].
    rewrite len_request in E by lia. lia.
  - assert (Hreq : request r p = p).
    { unfold request. apply firstn_all2. unfold len in Hfit. lia. }
    rewrite Hreq.
    destruct (Z.eqb_spec (len p) 0); [lia | reflexivity].
Qed.

Lemma Read_empty_buffer {T : Type} `{io_ReaderAt T} (r : ReadSeeker T) :
  cursor_ok r -> offset r < Size r -> Read r [] = Some ((0, None), ([], r)).
Proof.
  intros [Hsize Hoff] Hin. unfold Read.
  destruct (Z.ltb_spec (Size r) 0); [unfold int64_range in Hsize; lia|].
  destruct (Z.leb_spec (Size r) (offset r)); [lia|].
  rewrite wrap64_id by (unfold int64_range in *; lia).
  destruct (Z.ltb_spec (Size r - offset r) (len (@nil Byte.byte)));
    [cbn in *; lia | reflexivity].
Qed.

(** C5: on a cursor of non-negative [Size] whose offset is at or past
    [Size], [Read] returns zero bytes with [io.EOF] and leaves the cursor
    as it is.  Seeking to or past the end is accepted (from the start, and
    from the end with a non-negative argument), and after any successful
    seek to a position at or past [Size] every [Read] of a run returns
    zero bytes with [io.EOF]. *)
Theorem Read_at_end_is_EOF {T : Type} `{io_ReaderAt T} (r : ReadSeeker T) :
  0 <= Size r ->
  (forall p, Size r <= offset r -> Read r p = Some ((0, Some EOF), ([], r)))
  /\ (forall off, Size r <= off ->
      Seek r off SeekStart = ((off, None), set_offset r off))
  /\ (forall k, 0 <= k -> int64_range (k + Size r) ->
      Seek r k SeekEnd = ((k + Size r, None), set_offset r (k + Size r)))
  /\ (forall off whence pos r',
      Seek r off whence = ((pos, None), r') -> Size r <= pos ->
      forall ps, Reads r' ps = Some (map (fun _ => (0, Some EOF)) ps, r')).
Proof.
  intros Hsize. repeat split.
  - intros p Hpast. now apply Read_at_or_past_Size.
  - intros off Hoff. unfold Seek.
    destruct (Z.ltb_spec (Size r) 0); [lia|]. cbn.
    destruct (Z.ltb_spec off 0); [lia | reflexivity].
  - intros k Hk Hfit. unfold Seek.
    destruct (Z.ltb_spec (Size r) 0); [lia|]. cbn.
    rewrite wrap64_id by exact Hfit.
    destruct (Z.ltb_spec (k + Size r) 0); [lia | reflexivity].
  - intros off whence pos r' Hseek Hpast ps.
    destruct (Seek_outcome r off whence) as [[e He] | (pos' & _ & _ & Hok)];
      rewrite Hseek in *; [discriminate He|].
    injection Hok as -> ->.
    induction ps as [|p ps IH]; cbn -[Read]; [reflexivity|].
    rewrite Read_at_or_past_Size by (cbn; lia).
    now rewrite IH.
Qed.

Lemma Read_at_end_is_EOF_witness :
  Read (set_offset test_cursor 9) (buffer 4)
  = Some ((0, Some EOF), ([], set_offset test_cursor 9))
  /\ Seek test_cursor 9 SeekStart = ((9, None), set_offset test_cursor 9)
  /\ Reads (set_offset test_cursor 9) [buffer 4; buffer 1]
     = Some ([(0, Some EOF); (0, Some EOF)], set_offset test_cursor 9).
Proof.
  assert (Hsize : 0 <= Size test_cursor) by (cbn; lia).
  assert (Hsize' : 0 <= Size (set_offset test_cursor 9)) by (cbn; lia).
  split; [|split].
  - apply (proj1 (Read_at_end_is_EOF (set_offset test_cursor 9) Hsize')).
    cbn; lia.
  - apply (proj1 (proj2 (Read_at_end_is_EOF test_cursor Hsize))).
    cbn; lia.
  - apply (proj2 (proj2 (proj2 (Read_at_end_is_EOF test_cursor Hsize)))
             9 SeekStart 9 (set_offset test_cursor 9));
      [reflexivity | cbn; lia].
Defined.

(** C6: on a cursor of non-negative [Size], [Seek] goes to the argument
    for [io.SeekStart], to the argument plus the current offset for
    [io.SeekCurrent] and to the argument plus [Size] for [io.SeekEnd],
    the sums being [int64] sums (the exact sums whenever those fit in an
    [int64]); a negative position is refused with an error, a non-negative
    one is stored and returned; every other [whence] is refused with an
    error.  A refused seek leaves the cursor as it is. *)
Theorem Seek_supports_three_bases {T : Type}
    (r : ReadSeeker T) (off whence : Z) :
  0 <= Size r ->
  (whence = SeekStart -> seeks_to r off whence off)
  /\ (whence = SeekCurrent ->
      seeks_to r off whence (wrap64 (off + offset r))
      /\ (int64_range (off + offset r) ->
          seeks_to r off whence (off + offset r)))
  /\ (whence = SeekEnd ->
      seeks_to r off whence (wrap64 (off + Size r))
      /\ (int64_range (off + Size r) -> seeks_to r off whence (off + Size r)))
  /\ (whence <> SeekStart -> whence <> SeekCurrent -> whence <> SeekEnd ->
      Seek r off whence = ((0, Some errSeekToInvalidWhence), r)).
Proof.
  intros Hsize. unfold seeks_to, Seek.
  destruct (Z.ltb_spec (Size r) 0); [lia|].
  split; [|split; [|split]].
  - intros ->. cbn. destruct (Z.ltb_spec off 0); split; intros; (reflexivity || lia).
  - intros ->. cbn.
    split; [|intros Hfit; rewrite (wrap64_id _ Hfit)];
      match goal with |- context [?pos <? 0] => destruct (Z.ltb_spec pos 0) end;
      split; intros; (reflexivity || lia).
  - intros ->. cbn.
    split; [|intros Hfit; rewrite (wrap64_id _ Hfit)];
      match goal with |- context [?pos <? 0] => destruct (Z.ltb_spec pos 0) end;
      split; intros; (reflexivity || lia).
  - intros Hs Hc He.
    destruct (Z.eqb_spec whence SeekStart); [contradiction|].
    destruct (Z.eqb_spec whence SeekCurrent); [contradiction|].
    destruct (Z.eqb_spec whence SeekEnd); [contradiction|].
    reflexivity.
Qed.

Lemma Seek_supports_three_bases_witness :
  Seek test_cursor (-2) SeekEnd = ((3, None), set_offset test_cursor 3)
  /\ Seek test_cursor (-1) SeekCurrent
     = ((0, Some errSeekToNegativePosition), test_cursor)
  /\ Seek test_cursor 0 7 = ((0, Some errSeekToInvalidWhence), test_cursor).
Proof.
  assert (Hsize : 0 <= Size test_cursor) by (cbn; lia).
  split; [|split].
  - destruct (Seek_supports_three_bases test_cursor (-2) SeekEnd Hsize)
      as (_ & _ & Hend & _).
    destruct (Hend eq_refl) as [_ Hexact].
    apply Hexact; cbn; unfold int64_range; lia.
  - destruct (Seek_supports_three_bases test_cursor (-1) SeekCurrent Hsize)
      as (_ & Hcurrent & _).
    destruct (Hcurrent eq_refl) as [_ Hexact].
    apply Hexact; cbn; unfold int64_range; lia.
  - destruct (Seek_supports_three_bases test_cursor 0 7 Hsize)
      as (_ & _ & _ & Hother).
    apply Hother; discriminate.
Defined.

(** The sums of [Seek] are [int64] sums: from offset 1, seeking forward by
    the largest [int64] wraps to a negative position and is refused. *)
Example Seek_sum_wraps :
  Seek (set_offset test_cursor 1) (2 ^ 63 - 1) SeekCurrent
  = ((0, Some errSeekToNegativePosition), set_offset test_cursor 1).
Proof. reflexivity. Qed.

(** The methods keep the cursor in a state they can produce. *)
Lemma Seek_keeps_cursor_ok {T : Type} (r : ReadSeeker T) (off whence : Z) :
  int64_range off -> cursor_ok r -> cursor_ok (snd (Seek r off whence)).
Proof.
  intros Hoff [Hsize Hcur]. unfold Seek.
  destruct (Size r <? 0); [now split|].
  assert (Hwrap : forall z, - 2 ^ 63 <= wrap64 z < 2 ^ 63).
  { intros z. unfold wrap64.
    pose proof (Z.mod_pos_bound (z + 2 ^ 63) (2 ^ 64)). lia. }
  unfold int64_range in Hoff.
  destruct (whence =? SeekStart); [|destruct (whence =? SeekCurrent);
                                     [|destruct (whence =? SeekEnd)]];
    try (now split);
    match goal with
    | |- context [?pos <? 0] =>
        destruct (Z.ltb_spec pos 0); [now split|];
        split; [exact Hsize | cbn; pose proof (Hwrap (off + offset r));
                               pose proof (Hwrap (off + Size r)); lia]
    end.
Qed.

(** C10: when a [Read] reaches [ReadAt], [ReadAt] reports no error and
    the bytes it returns end exactly at [Size], that same [Read] returns
    those bytes together with [io.EOF] and leaves the cursor at [Size]. *)
Theorem Read_ending_at_Size_returns_EOF {T : Type} `{io_ReaderAt T}
    (r : ReadSeeker T) (p : list Byte.byte) (src : T) (data : list Byte.byte) :
  cursor_ok r -> offset r < Size r -> p <> [] ->
  ReadAt (ReaderAt r) (request r p) (offset r) = (src, (data, None)) ->
  offset r + len data = Size r ->
  Read r p = Some ((len data, Some EOF),
                   (data, {| ReaderAt := src; Size := Size r; offset := Size r |})).
Proof.
  intros Hok Hin Hp Hcall Hend.
  rewrite Read_before_Size by assumption. rewrite Hcall, Hend.
  rewrite wrap64_id by apply Hok. cbn. now rewrite Z.eqb_refl.
Qed.

Lemma Read_ending_at_Size_returns_EOF_witness :
  Read (set_offset test_cursor 3) (buffer 8)
  = Some ((2, Some EOF), ([Byte.x64; Byte.x65], set_offset test_cursor 5)).
Proof.
  apply (Read_ending_at_Size_returns_EOF
           (set_offset test_cursor 3) (buffer 8) test_source [Byte.x64; Byte.x65]).
  - unfold cursor_ok, int64_range; cbn; lia.
  - cbn; lia.
  - discriminate.
  - reflexivity.
  - reflexivity.
Defined.

Lemma request_request {T : Type} (r : ReadSeeker T) (p : list Byte.byte) :
  request r (request r p) = request r p.
Proof.
  unfold request. rewrite firstn_firstn. f_equal. lia.
Qed.

(** C7: over a source that keeps the [io.ReaderAt] contract, every [Read]
    returns (it does not panic), advances the offset by exactly the number
    of bytes it returns, and returns no byte from beyond [Size]: the
    offset never passes [Size] by reading, and a buffer that would reach
    beyond [Size] is cut to end at [Size] before the source is asked.  A
    short read always carries [io.EOF] or an error, and it happens only
    with the cursor at or past [Size] afterwards, unless [Size] is invalid
    or the source itself reported an error. *)
Theorem Read_advances_within_Size {T : Type} `{ReaderAtContract T}
    (r : ReadSeeker T) (p : list Byte.byte) :
  cursor_ok r ->
  exists n err data r',
    Read r p = Some ((n, err), (data, r'))
    /\ n = len data
    /\ offset r' = offset r + n
    /\ Size r' = Size r
    /\ 0 <= n <= len p
    /\ (0 < n -> offset r' <= Size r)
    /\ (offset r < Size r < offset r + len p ->
        len (request r p) = Size r - offset r
        /\ Read r p = Read r (request r p))
    /\ (n < len p ->
        err <> None
        /\ (Size r < 0
            \/ Size r <= offset r'
            \/ exists src', ReadAt (ReaderAt r) (request r p) (offset r)
                            = (src', (data, err)))).
Proof.
  intros Hok. pose proof Hok as [Hsize Hoff]. unfold int64_range in Hsize.
  pose proof (len_nonneg p) as Hlen.
  destruct (Z.lt_ge_cases (Size r) 0) as [Hneg | Hpos].
  { rewrite Read_invalid_Size by assumption.
    exists 0, (Some errInvalidSize), [], r. cbn.
    repeat split; try lia; try discriminate. }
  destruct (Z.le_gt_cases (Size r) (offset r)) as [Hpast | Hin].
  { rewrite Read_at_or_past_Size by assumption.
    exists 0, (Some EOF), [], r. cbn.
    repeat split; try lia; try discriminate. }
  destruct p as [|b p].
  { rewrite Read_empty_buffer by assumption.
    exists 0, None, [], r. cbn in *. repeat split; lia. }
  set (buf := b :: p) in *.
  assert (Hbuf : buf <> []) by discriminate.
  pose proof (len_request r buf Hin) as Hreq.
  rewrite Read_before_Size by assumption.
  destruct (ReadAt (ReaderAt r) (request r buf) (offset r))
    as [src [data e]] eqn:Hcall.
  pose proof (ReadAt_at_most _ _ _ _ _ _ Hcall) as Hmost.
  pose proof (ReadAt_short_has_error _ _ _ _ _ _ Hcall) as Hshort.
  pose proof (len_nonneg data) as Hdata.
  rewrite wrap64_id by (unfold int64_range; lia).
  eexists _, _, _, _. split; [reflexivity|]. cbn [offset Size].
  split; [reflexivity|]. split; [reflexivity|]. split; [reflexivity|].
  split; [lia|]. split; [lia|]. split.
  - intros Hcut. split; [lia|].
    rewrite (Read_before_Size r (request r buf)); try assumption.
    + now rewrite request_request, Hcall, wrap64_id by (unfold int64_range; lia).
    + intros Hnil. rewrite Hnil in Hreq. cbn in Hreq. lia.
  - intros Hfew.
    destruct (Z.eq_dec (len data) (len (request r buf))) as [Hfull | Hpart].
    + assert (Hend : offset r + len data = Size r) by lia.
      rewrite Hend, Z.eqb_refl, andb_true_r.
      split; [destruct e; discriminate|]. right; left. lia.
    + assert (He : e <> None) by (apply Hshort; lia).
      destruct e as [e|]; [|contradiction]. cbn.
      split; [discriminate|]. right; right. now exists src.
Qed.

Lemma Read_advances_within_Size_witness :
  exists n err data r',
    Read (set_offset test_cursor 3) (buffer 8) = Some ((n, err), (data, r'))
    /\ n = len data
    /\ offset r' = 3 + n
    /\ Size r' = 5
    /\ 0 <= n <= 8
    /\ (0 < n -> offset r' <= 5)
    /\ (3 < 5 < 3 + 8 ->
        len (request (set_offset test_cursor 3) (buffer 8)) = 5 - 3
        /\ Read (set_offset test_cursor 3) (buffer 8)
           = Read (set_offset test_cursor 3)
                  (request (set_offset test_cursor 3) (buffer 8)))
    /\ (n < 8 ->
        err <> None
        /\ (5 < 0
            \/ 5 <= offset r'
            \/ exists src',
                 ReadAt test_source (request (set_offset test_cursor 3) (buffer 8)) 3
                 = (src', (data, err)))).
Proof.
  apply (Read_advances_within_Size (set_offset test_cursor 3) (buffer 8)).
  unfold cursor_ok, int64_range; cbn; lia.
Defined.

(** [Read] keeps the cursor in a state the methods can produce. *)
Lemma Read_keeps_cursor_ok {T : Type} `{ReaderAtContract T}
    (r : ReadSeeker T) (p : list Byte.byte) (res : ReadOutcome T) :
  cursor_ok r -> Read r p = Some res -> cursor_ok (snd (snd res)).
Proof.
  intros Hok Hrun. pose proof Hok as [Hsize Hoff].
  destruct (Z.lt_ge_cases (Size r) 0) as [Hneg | Hpos].
  { rewrite Read_invalid_Size in Hrun by assumption. now injection Hrun as <-. }
  destruct (Z.le_gt_cases (Size r) (offset r)) as [Hpast | Hin].
  { rewrite Read_at_or_past_Size in Hrun by assumption.
    now injection Hrun as <-. }
  destruct p as [|b p].
  { rewrite Read_empty_buffer in Hrun by assumption. now injection Hrun as <-. }
  rewrite Read_before_Size in Hrun by (assumption || discriminate).
  destruct (ReadAt (ReaderAt r) (request r (b :: p)) (offset r))
    as [src [data e]] eqn:Hcall.
  injection Hrun as <-. cbn.
  pose proof (ReadAt_at_most _ _ _ _ _ _ Hcall) as Hmost.
  rewrite len_request in Hmost by assumption.
  pose proof (len_nonneg data). unfold int64_range in Hsize.
  rewrite wrap64_id by (unfold int64_range; lia).
  split; [exact Hsize | cbn; lia].
Qed.

(** ** Reading a source of known content through the cursor *)

Lemma firstn_plus {A : Type} (a b : nat) (l : list A) :
  firstn (a + b) l = (firstn a l ++ firstn b (skipn a l))%list.
Proof.
  revert l. induction a as [|a IH]; intros [|x l]; cbn;
    rewrite ?firstn_nil; try reflexivity.
  now rewrite IH.
Qed.

Lemma slice_app (content : list Byte.byte) (off a b : Z) :
  0 <= off -> 0 <= a -> 0 <= b ->
  (slice content off a ++ slice content (off + a) b)%list
  = slice content off (a + b).
Proof.
  intros Hoff Ha Hb. unfold slice.
  rewrite !Z2Nat.inj_add by lia.
  rewrite firstn_plus, skipn_skipn.
  do 3 f_equal. lia.
Qed.

Lemma slice_none (content : list Byte.byte) (off : Z) : slice content off 0 = [].
Proof. reflexivity. Qed.

Lemma len_slice (content : list Byte.byte) (off n : Z) :
  0 <= off -> 0 <= n -> off + n <= len content ->
  len (slice content off n) = n.
Proof.
  unfold slice, len. intros Hoff Hn Hin.
  rewrite length_firstn, length_skipn. lia.
Qed.

Lemma MemSource_serves (content : MemSource) :
  Serves content (fun src => src = content).
Proof.
  intros src p off -> Hp Hoff Hin. exists content. split; [|reflexivity].
  unfold ReadAt, MemSource_ReadAt.
  assert (0 < len p).
  { pose proof (len_nonneg p). destruct (Z.eq_dec (len p) 0) as [E|]; [|lia].
    now apply len_zero_nil in E. }
  destruct (Z.ltb_spec off 0); [lia|].
  destruct (Z.leb_spec (len content) off); [lia|].
  replace (firstn (List.length p) (skipn (Z.to_nat off) content))
    with (slice content off (len p))
    by (unfold slice, len; now rewrite Nat2Z.id).
  rewrite len_slice by lia.
  now rewrite Z.ltb_irrefl.
Qed.

(** Before [Size], one [Read] over a source that serves [content] returns
    the bytes of [content] from the offset on, as many as the buffer
    holds or as remain before [Size], and [io.EOF] exactly when it ends
    at [Size]. *)
Lemma Read_serves {T : Type} `{io_ReaderAt T}
    (content : list Byte.byte) (good : T -> Prop)
    (r : ReadSeeker T) (p : list Byte.byte) :
  Serves content good -> good (ReaderAt r) ->
  cursor_ok r -> Size r <= len content -> offset r < Size r -> p <> [] ->
  let n := Z.min (len p) (Size r - offset r) in
  exists src',
    good src'
    /\ Read r p
       = Some ((n, if offset r + n =? Size r then Some EOF else None),
               (slice content (offset r) n,
                {| ReaderAt := src'; Size := Size r; offset := offset r + n |})).
Proof.
  intros Hserves Hgood Hok Hsize Hin Hp n.
  pose proof Hok as [Hrange Hoff]. unfold int64_range in Hrange.
  pose proof (len_request r p Hin) as Hreq. fold n in Hreq.
  assert (Hn : 0 < n).
  { pose proof (len_nonneg p). destruct (Z.eq_dec (len p) 0) as [E|].
    - now apply len_zero_nil in E.
    - unfold n. lia. }
  destruct (Hserves (ReaderAt r) (request r p) (offset r))
    as (src' & Hcall & Hgood'); try assumption; try lia.
  { intros Hnil. rewrite Hnil in Hreq. cbn in Hreq. lia. }
  exists src'. split; [exact Hgood'|].
  rewrite Read_before_Size by assumption.
  rewrite Hcall, Hreq, len_slice by lia.
  rewrite wrap64_id by (unfold int64_range; lia).
  reflexivity.
Qed.

Lemma total_len_nonneg (ps : list (list Byte.byte)) : 0 <= total_len ps.
Proof.
  induction ps as [|p ps IH]; [cbn; lia|].
  change (0 <= len p + total_len ps). pose proof (len_nonneg p). lia.
Qed.

(** X1: consecutive reads return consecutive bytes.  Over a source that
    serves [content], a run of [Read] calls from a cursor at or before
    [Size] returns, put together, the bytes of [content] from the offset
    on, as many as the buffers hold together or as remain before [Size],
    however the room is divided among the buffers; the cursor ends that
    many bytes further, and no call panics. *)
Theorem ReadsData_consecutive_bytes {T : Type} `{io_ReaderAt T}
    (content : list Byte.byte) (good : T -> Prop)
    (ps : list (list Byte.byte)) (r : ReadSeeker T) :
  Serves content good -> good (ReaderAt r) ->
  cursor_ok r -> Size r <= len content -> offset r <= Size r ->
  let n := Z.min (total_len ps) (Size r - offset r) in
  exists r',
    ReadsData r ps = Some (slice content (offset r) n, r')
    /\ Size r' = Size r
    /\ offset r' = offset r + n
    /\ good (ReaderAt r').
Proof.
  intros Hserves. revert r.
  induction ps as [|p ps IH]; intros r Hgood Hok Hsize Hle n.
  { exists r. subst n. cbn. replace (Z.min 0 (Size r - offset r)) with 0 by lia.
    repeat split; [lia | assumption]. }
  pose proof Hok as [Hrange Hoff]. unfold int64_range in Hrange.
  pose proof (total_len_nonneg ps) as Hps. pose proof (len_nonneg p) as Hlen.
  cbn [total_len fold_right] in n. fold (total_len ps) in n.
  cbn [ReadsData].
  destruct (Z.eq_dec (offset r) (Size r)) as [Hend | Hbefore].
  { rewrite Read_at_or_past_Size by lia.
    destruct (IH r Hgood Hok Hsize Hle) as (r' & -> & Hs & Ho & Hg).
    exists r'. subst n.
    replace (Z.min (total_len ps) (Size r - offset r)) with 0 in * by lia.
    replace (Z.min (len p + total_len ps) (Size r - offset r)) with 0 by lia.
    repeat split; assumption. }
  destruct p as [|b p].
  { rewrite Read_empty_buffer by (assumption || lia).
    destruct (IH r Hgood Hok Hsize Hle) as (r' & -> & Hs & Ho & Hg).
    exists r'. subst n. cbn [len List.length Z.of_nat Z.add] in *.
    repeat split; assumption. }
  set (buf := b :: p) in *.
  destruct (Read_serves content good r buf) as (src' & Hgood' & ->);
    try assumption; try lia; try discriminate.
  set (k := Z.min (len buf) (Size r - offset r)) in *.
  set (r1 := {| ReaderAt := src'; Size := Size r; offset := offset r + k |}).
  assert (Hk : 0 <= k <= Size r - offset r) by (unfold k; lia).
  destruct (IH r1) as (r' & -> & Hs & Ho & Hg); unfold r1 in *;
    cbn [ReaderAt Size offset] in *.
  - exact Hgood'.
  - unfold cursor_ok, int64_range. cbn. lia.
  - exact Hsize.
  - lia.
  - exists r'. rewrite slice_app by lia.
    assert (Hsum : k + Z.min (total_len ps) (Size r - (offset r + k)) = n)
      by (unfold n, k; lia).
    rewrite Hsum in *.
    repeat split; try assumption. lia.
Qed.

Lemma ReadsData_consecutive_bytes_witness :
  exists r',
    ReadsData (set_offset test_cursor 1) [buffer 2; buffer 0; buffer 1; buffer 4]
    = Some ([Byte.x62; Byte.x63; Byte.x64; Byte.x65], r')
    /\ Size r' = 5
    /\ offset r' = 1 + 4
    /\ ReaderAt r' = test_source.
Proof.
  apply (ReadsData_consecutive_bytes test_source (fun src => src = test_source)
           [buffer 2; buffer 0; buffer 1; buffer 4] (set_offset test_cursor 1)).
  - apply MemSource_serves.
  - reflexivity.
  - unfold cursor_ok, int64_range; cbn; lia.
  - cbn; lia.
  - cbn; lia.
Defined.

(** X2: a seek followed by a read is a positional read.  Over a source
    that serves [content], after any successful [Seek] to a position
    before [Size] a [Read] into a non-empty buffer returns the bytes of
    [content] at that position, as many as the buffer holds or as remain
    before [Size]; it reports [io.EOF] exactly when the buffer reaches
    [Size], and leaves the cursor behind the bytes it returned. *)
Theorem Seek_then_Read_is_positional {T : Type} `{io_ReaderAt T}
    (content : list Byte.byte) (good : T -> Prop)
    (r r1 : ReadSeeker T) (off whence pos : Z) (p : list Byte.byte) :
  Serves content good -> good (ReaderAt r) ->
  int64_range (Size r) -> Size r <= len content ->
  Seek r off whence = ((pos, None), r1) -> pos < Size r -> p <> [] ->
  let n := Z.min (len p) (Size r - pos) in
  exists r2,
    Read r1 p
    = Some ((n, if Size r <=? pos + len p then Some EOF else None),
            (slice content pos n, r2))
    /\ Size r2 = Size r
    /\ offset r2 = pos + n
    /\ good (ReaderAt r2).
Proof.
  intros Hserves Hgood Hrange Hsize Hseek Hpos Hp n.
  destruct (Seek_outcome r off whence) as [[e He] | (pos' & Hnn & _ & Hok)];
    rewrite Hseek in *; [discriminate He|].
  injection Hok as Epos Er1. subst pos' r1.
  destruct (Read_serves content good (set_offset r pos) p)
    as (src' & Hgood' & Hread); try assumption.
  { unfold cursor_ok, int64_range in *. cbn. lia. }
  cbn [set_offset Size offset] in Hread. fold n in Hread.
  assert (Hcond : (pos + n =? Size r) = (Size r <=? pos + len p)).
  { unfold n. destruct (Z.eqb_spec (pos + Z.min (len p) (Size r - pos)) (Size r));
      destruct (Z.leb_spec (Size r) (pos + len p)); (reflexivity || lia). }
  rewrite Hcond in Hread.
  eexists. split; [exact Hread|]. cbn [Size offset ReaderAt].
  repeat split. exact Hgood'.
Qed.

Lemma Seek_then_Read_is_positional_witness :
  exists r2,
    Read (set_offset test_cursor 2) (buffer 2)
    = Some ((2, None), ([Byte.x63; Byte.x64], r2))
    /\ Size r2 = 5
    /\ offset r2 = 2 + 2
    /\ ReaderAt r2 = test_source.
Proof.
  apply (Seek_then_Read_is_positional test_source (fun src => src = test_source)
           test_cursor (set_offset test_cursor 2) (-3) SeekEnd 2 (buffer 2)).
  - apply MemSource_serves.
  - reflexivity.
  - unfold int64_range; cbn; lia.
  - cbn; lia.
  - reflexivity.
  - cbn; lia.
  - discriminate.
Defined.

(** ** Further behaviour of the cursor *)

(** X3: a nil error means a full buffer.  Over a source that keeps the
    [io.ReaderAt] contract, a [Read] that returns a nil error has filled
    the whole buffer, and, unless the buffer is empty, the cursor is
    still before [Size] afterwards: the last bytes before [Size] never
    come with a nil error. *)
Theorem Read_nil_error_fills_buffer {T : Type} `{ReaderAtContract T}
    (r r' : ReadSeeker T) (p data : list Byte.byte) (n : Z) :
  cursor_ok r ->
  Read r p = Some ((n, None), (data, r')) ->
  n = len p /\ len data = len p /\ (p <> [] -> offset r' < Size r).
Proof.
  intros Hok Hrun. pose proof Hok as [Hrange Hoff].
  unfold int64_range in Hrange.
  destruct (Z.lt_ge_cases (Size r) 0) as [Hneg | Hpos].
  { rewrite Read_invalid_Size in Hrun by assumption. discriminate Hrun. }
  destruct (Z.le_gt_cases (Size r) (offset r)) as [Hpast | Hin].
  { rewrite Read_at_or_past_Size in Hrun by assumption. discriminate Hrun. }
  destruct p as [|b p].
  { rewrite Read_empty_buffer in Hrun by assumption.
    injection Hrun as <- <- <-. repeat split. intros Hne. now contradiction Hne. }
  set (buf := b :: p) in *.
  rewrite Read_before_Size in Hrun by (assumption || discriminate).
  destruct (ReadAt (ReaderAt r) (request r buf) (offset r))
    as [src [d e]] eqn:Hcall.
  pose proof (ReadAt_at_most _ _ _ _ _ _ Hcall) as Hmost.
  pose proof (ReadAt_short_has_error _ _ _ _ _ _ Hcall) as Hshort.
  rewrite len_request in Hmost, Hshort by assumption.
  pose proof (len_nonneg d). pose proof (len_nonneg buf).
  rewrite wrap64_id in Hrun by (unfold int64_range; lia).
  injection Hrun as <- Herr <- <-. cbn [offset].
  destruct e as [e|]; cbn in Herr.
  { discriminate Herr. }
  destruct (Z.eqb_spec (offset r + len d) (Size r)) as [Hend|Hmore];
    [discriminate Herr|].
  assert (Hfull : len d = Z.min (len buf) (Size r - offset r)).
  { destruct (Z.lt_ge_cases (len d) (Z.min (len buf) (Size r - offset r)))
      as [Hfew|]; [|lia].
    now contradiction (Hshort Hfew). }
  repeat split; lia.
Qed.

Lemma Read_nil_error_fills_buffer_witness :
  2 = len (buffer 2)
  /\ len [Byte.x61; Byte.x62] = len (buffer 2)
  /\ (buffer 2 <> [] -> offset (set_offset test_cursor 2) < Size test_cursor).
Proof.
  apply (Read_nil_error_fills_buffer test_cursor (set_offset test_cursor 2)
           (buffer 2) [Byte.x61; Byte.x62] 2).
  - unfold cursor_ok, int64_range; cbn; lia.
  - reflexivity.
Defined.

(** X4: a [Read] into an empty buffer returns no byte, does not ask the
    source and leaves the cursor as it is; its error tells where the
    cursor stands: [errInvalidSize] for a negative [Size], [io.EOF] at or
    past [Size], nil before [Size]. *)
Theorem Read_empty_buffer_is_free {T : Type} `{io_ReaderAt T} (r : ReadSeeker T) :
  cursor_ok r ->
  exists err,
    Read r [] = Some ((0, err), ([], r))
    /\ (err = Some errInvalidSize <-> Size r < 0)
    /\ (err = Some EOF <-> 0 <= Size r <= offset r)
    /\ (err = None <-> offset r < Size r).
Proof.
  intros Hok. pose proof Hok as [_ Hoff].
  destruct (Z.lt_ge_cases (Size r) 0) as [Hneg | Hpos].
  { exists (Some errInvalidSize). rewrite Read_invalid_Size by assumption.
    repeat split; intros; try lia; try discriminate; reflexivity. }
  destruct (Z.le_gt_cases (Size r) (offset r)) as [Hpast | Hin].
  { exists (Some EOF). rewrite Read_at_or_past_Size by assumption.
    repeat split; intros; try lia; try discriminate; reflexivity. }
  exists None. rewrite Read_empty_buffer by assumption.
  repeat split; intros; try lia; try discriminate; reflexivity.
Qed.

Lemma Read_empty_buffer_is_free_witness :
  exists err,
    Read (set_offset test_cursor 5) [] = Some ((0, err), ([], set_offset test_cursor 5))
    /\ (err = Some errInvalidSize <-> 5 < 0)
    /\ (err = Some EOF <-> 0 <= 5 <= 5)
    /\ (err = None <-> 5 < 5).
Proof.
  apply (Read_empty_buffer_is_free (set_offset test_cursor 5)).
  unfold cursor_ok, int64_range; cbn; lia.
Defined.

Lemma Seek_invalid_Size {T : Type} (r : ReadSeeker T) (off whence : Z) :
  Size r < 0 -> Seek r off whence = ((0, Some errInvalidSize), r).
Proof.
  intros Hsize. unfold Seek.
  destruct (Z.ltb_spec (Size r) 0); [reflexivity | lia].
Qed.

(** X5: a cursor with a negative [Size] is inert.  Every [Read] and every
    [Seek] on it, whatever the buffer, the offset and the [whence] (a
    valid one or not), fails with [errInvalidSize], and no run of calls
    moves the cursor or reaches the source. *)
Theorem negative_Size_cursor_is_inert {T : Type} `{io_ReaderAt T}
    (r : ReadSeeker T) :
  Size r < 0 ->
  (forall p, Read r p = Some ((0, Some errInvalidSize), ([], r)))
  /\ (forall off whence, Seek r off whence = ((0, Some errInvalidSize), r))
  /\ (forall ops, run r ops = Some r).
Proof.
  intros Hsize. split; [|split].
  - intros p. now apply Read_invalid_Size.
  - intros off whence. now apply Seek_invalid_Size.
  - induction ops as [|[p | off whence] ops IH]; cbn [run step].
    + reflexivity.
    + now rewrite Read_invalid_Size.
    + now rewrite Seek_invalid_Size.
Qed.

Lemma negative_Size_cursor_is_inert_witness :
  Read (cursor_over test_source (-1)) (buffer 3)
  = Some ((0, Some errInvalidSize), ([], cursor_over test_source (-1)))
  /\ Seek (cursor_over test_source (-1)) 0 7
     = ((0, Some errInvalidSize), cursor_over test_source (-1))
  /\ run (cursor_over test_source (-1))
         [OpSeek 2 SeekStart; OpRead (buffer 3); OpSeek 0 SeekEnd]
     = Some (cursor_over test_source (-1)).
Proof.
  assert (Hsize : Size (cursor_over test_source (-1)) < 0) by (cbn; lia).
  destruct (negative_Size_cursor_is_inert (cursor_over test_source (-1)) Hsize)
    as (Hread & Hseek & Hrun).
  split; [apply Hread | split; [apply Hseek | apply Hrun]].
Defined.

Lemma Read_no_panic {T : Type} `{io_ReaderAt T}
    (r : ReadSeeker T) (p : list Byte.byte) :
  cursor_ok r -> exists res, Read r p = Some res.
Proof.
  intros Hok. pose proof Hok as [_ Hoff].
  destruct (Z.lt_ge_cases (Size r) 0) as [Hneg | Hpos].
  { rewrite Read_invalid_Size by assumption. eauto. }
  destruct (Z.le_gt_cases (Size r) (offset r)) as [Hpast | Hin].
  { rewrite Read_at_or_past_Size by assumption. eauto. }
  destruct p as [|b p].
  { rewrite Read_empty_buffer by assumption. eauto. }
  rewrite Read_before_Size by (assumption || discriminate).
  destruct (ReadAt (ReaderAt r) (request r (b :: p)) (offset r)) as [src [d e]].
  eauto.
Qed.

Lemma Read_keeps_Size {T : Type} `{io_ReaderAt T}
    (r : ReadSeeker T) (p : list Byte.byte) (res : ReadOutcome T) :
  Read r p = Some res -> Size (snd (snd res)) = Size r.
Proof.
  unfold Read.
  repeat match goal with
         | |- context [if ?b then _ else _] => destruct b
         | |- context [match ?x with _ => _ end] => destruct x
         end;
    intros Hrun; try discriminate Hrun; now injection Hrun as <-.
Qed.

Lemma Seek_keeps_Size {T : Type} (r : ReadSeeker T) (off whence : Z) :
  Size (snd (Seek r off whence)) = Size r.
Proof.
  destruct (Seek_outcome r off whence) as [[e ->] | (pos & _ & _ & ->)];
    reflexivity.
Qed.

(** A run of typed calls from a producible cursor state does not panic
    and ends in a producible state with the same [Size]. *)
Lemma run_keeps_cursor_ok {T : Type} `{ReaderAtContract T} (ops : list Op) :
  forall r : ReadSeeker T,
    cursor_ok r -> Forall op_typed ops ->
    exists r', run r ops = Some r' /\ cursor_ok r' /\ Size r' = Size r.
Proof.
  induction ops as [|op ops IH]; intros r Hok Htyped.
  { exists r. split; [reflexivity | split; [exact Hok | reflexivity]]. }
  inversion Htyped as [|? ? Hop Hops]; subst.
  destruct op as [p | off whence]; cbn [run step].
  - destruct (Read_no_panic r p Hok) as [res Hread]. rewrite Hread.
    pose proof (Read_keeps_cursor_ok r p res Hok Hread) as Hok'.
    pose proof (Read_keeps_Size r p res Hread) as Hsize.
    destruct res as [? [? r1]]. cbn in Hok', Hsize.
    destruct (IH r1 Hok' Hops) as (r' & -> & Hok'' & Hsize').
    exists r'. split; [reflexivity | split; [exact Hok'' | congruence]].
  - pose proof (Seek_keeps_cursor_ok r off whence Hop Hok) as Hok'.
    destruct (IH _ Hok' Hops) as (r' & -> & Hok'' & Hsize').
    exists r'. split; [reflexivity | split; [exact Hok'' |]].
    rewrite Hsize'. apply Seek_keeps_Size.
Qed.

(** X6: whatever is called on a cursor, its offset stays a non-negative
    [int64] and its [Size] stays what it was.  From a fresh cursor over a
    source that keeps the [io.ReaderAt] contract, no run of [Read] and
    [Seek] calls panics, and the cursor it ends in has the [Size] it was
    made with and an offset in [[0, 2^63)]. *)
Theorem fresh_cursor_stays_valid {T : Type} `{ReaderAtContract T}
    (src : T) (size : Z) (ops : list Op) :
  int64_range size -> Forall op_typed ops ->
  exists r',
    run (cursor_over src size) ops = Some r'
    /\ Size r' = size
    /\ 0 <= offset r' < 2 ^ 63.
Proof.
  intros Hsize Htyped.
  destruct (run_keeps_cursor_ok ops (cursor_over src size))
    as (r' & Hrun & [_ Hoff] & Hsame); try assumption.
  { split; [exact Hsize | cbn; lia]. }
  exists r'. now repeat split.
Qed.

Lemma fresh_cursor_stays_valid_witness :
  exists r',
    run (cursor_over test_source 5)
        [OpRead (buffer 2); OpSeek (-9) SeekCurrent; OpSeek 7 SeekStart;
         OpRead (buffer 1); OpSeek (-1) SeekEnd; OpRead (buffer 4)]
    = Some r'
    /\ Size r' = 5
    /\ 0 <= offset r' < 2 ^ 63.
Proof.
  apply (fresh_cursor_stays_valid test_source 5).
  - unfold int64_range; lia.
  - repeat constructor; unfold int64_range; lia.
Defined.

(** X7: the position of a cursor can be asked, saved and restored.  On a
    producible cursor with non-negative [Size], [Seek(0, io.SeekCurrent)]
    returns the offset and changes nothing; and after any [Seek] from
    that cursor, accepted or refused, seeking from the start to the saved
    offset gives back the cursor exactly as it was. *)
Theorem Seek_tell_and_restore {T : Type} (r : ReadSeeker T) :
  cursor_ok r -> 0 <= Size r ->
  Seek r 0 SeekCurrent = ((offset r, None), r)
  /\ (forall off whence,
      Seek (snd (Seek r off whence)) (offset r) SeekStart
      = ((offset r, None), r)).
Proof.
  intros [Hrange Hoff] Hsize.
  assert (Hback : forall r1 : ReadSeeker T,
             ReaderAt r1 = ReaderAt r -> Size r1 = Size r ->
             Seek r1 (offset r) SeekStart = ((offset r, None), r)).
  { intros r1 Hsrc Hsz. unfold Seek. rewrite Hsz.
    destruct (Z.ltb_spec (Size r) 0); [lia|]. cbn.
    destruct (Z.ltb_spec (offset r) 0); [lia|].
    unfold set_offset. rewrite Hsrc, Hsz. now destruct r. }
  split.
  - unfold Seek. destruct (Z.ltb_spec (Size r) 0); [lia|]. cbn.
    rewrite wrap64_id by (unfold int64_range; lia).
    destruct (Z.ltb_spec (offset r) 0); [lia|].
    unfold set_offset. now destruct r.
  - intros off whence.
    destruct (Seek_outcome r off whence) as [[e ->] | (pos & _ & _ & ->)];
      now apply Hback.
Qed.

Lemma Seek_tell_and_restore_witness :
  Seek (set_offset test_cursor 3) 0 SeekCurrent
  = ((3, None), set_offset test_cursor 3)
  /\ Seek (snd (Seek (set_offset test_cursor 3) (-1) SeekEnd)) 3 SeekStart
     = ((3, None), set_offset test_cursor 3).
Proof.
  assert (Hok : cursor_ok (set_offset test_cursor 3))
    by (unfold cursor_ok, int64_range; cbn; lia).
  assert (Hsize : 0 <= Size (set_offset test_cursor 3)) by (cbn; lia).
  destruct (Seek_tell_and_restore (set_offset test_cursor 3) Hok Hsize)
    as [Htell Hrestore].
  split; [exact Htell | exact (Hrestore (-1) SeekEnd)].
Defined.

(** ** Further behaviour of [Open] and [Access] *)

(** X8: [Open] has no failure of its own.  Whenever [Open] returns an
    error, one of its steps has failed, the error is [CantOpenError], and
    it comes with no file and flags zero. *)
Theorem Open_error_has_a_cause `{Externals}
    (name : string) (flags : OpenFlag) (s s' : State)
    (file : option ZstdFile) (flags' : OpenFlag) (e : error) :
  Open name flags s = ((file, flags', Some e), s') ->
  OpenStepFails name s /\ e = CantOpenError /\ file = None /\ flags' = 0.
Proof.
  intros Hrun. split.
  - apply (Open_CantOpen_only_on_failure name flags s).
    rewrite Hrun. discriminate.
  - destruct (Open_result_shape name flags s) as [[f Hok] | Hfail];
      rewrite Hrun in *; cbn in *; [discriminate Hok|].
    injection Hfail as -> -> ->. now repeat split.
Qed.

Lemma Open_error_has_a_cause_witness :
  fst (Open "plain.sqlite" 2 test_state) = (None, 0, Some CantOpenError)
  /\ OpenStepFails "plain.sqlite" test_state.
Proof.
  split; [reflexivity|].
  exact (proj1 (Open_error_has_a_cause
                  "plain.sqlite" 2 test_state
                  (snd (Open "plain.sqlite" 2 test_state))
                  None 0 CantOpenError eq_refl)).
Defined.

(** X9: the requested flags have no part in what [Open] does.  For two
    sets of requested flags, [Open] makes the same calls, leaves the same
    world, and returns the same file and the same error: asking for
    read-write, create or exclusive access creates nothing and opens
    nothing differently. *)
Theorem Open_ignores_requested_flags `{Externals}
    (name : string) (flags1 flags2 : OpenFlag) (s : State) :
  fst (fst (fst (Open name flags1 s))) = fst (fst (fst (Open name flags2 s)))
  /\ snd (fst (Open name flags1 s)) = snd (fst (Open name flags2 s))
  /\ snd (Open name flags1 s) = snd (Open name flags2 s).
Proof.
  run_Open; now repeat split.
Qed.

(** X10: [Open] stops at the first step that fails.  The calls recorded
    are those up to and including the failing one, and the world is left
    as the failing call left it: no decoder is created when the source
    cannot be made, and no seekable reader is constructed when the
    decoder cannot be created. *)
Theorem Open_stops_at_the_failing_call `{Externals}
    (name : string) (flags : OpenFlag) (s : State) :
  (HasPrefix name "http://" || HasPrefix name "https://" = true ->
   (forall e, url_Parse name = Err e ->
      snd (Open name flags s)
      = {| world := world s; calls := calls s ++ [CallUrlParse name] |})
   /\ (forall uri e w, url_Parse name = Ok uri ->
       ranger_NewReader uri (world s) = (Err e, w) ->
       snd (Open name flags s)
       = {| world := w;
            calls := calls s ++ [CallUrlParse name; CallRangerNewReader uri] |})
   /\ (forall uri reader w e w', url_Parse name = Ok uri ->
       ranger_NewReader uri (world s) = (Ok reader, w) ->
       zstd_NewReader w = (Err e, w') ->
       snd (Open name flags s)
       = {| world := w';
            calls := calls s ++ [CallUrlParse name; CallRangerNewReader uri;
                                 CallZstdNewReader] |})
   /\ (forall uri reader w decoder w' e w'', url_Parse name = Ok uri ->
       ranger_NewReader uri (world s) = (Ok reader, w) ->
       zstd_NewReader w = (Ok decoder, w') ->
       seekable_NewReader (HttpReader reader) decoder w' = (Err e, w'') ->
       snd (Open name flags s)
       = {| world := w'';
            calls := calls s ++ [CallUrlParse name; CallRangerNewReader uri;
                                 CallZstdNewReader;
                                 CallSeekableNewReader (HttpReader reader)
                                                       decoder] |}))
  /\ (HasPrefix name "http://" || HasPrefix name "https://" = false ->
      (forall e w, os_Open name (world s) = (Err e, w) ->
         snd (Open name flags s)
         = {| world := w; calls := calls s ++ [CallOsOpen name] |})
      /\ (forall file w e w', os_Open name (world s) = (Ok file, w) ->
          zstd_NewReader w = (Err e, w') ->
          snd (Open name flags s)
          = {| world := w';
               calls := calls s ++ [CallOsOpen name; CallZstdNewReader] |})
      /\ (forall file w decoder w' e w'', os_Open name (world s) = (Ok file, w) ->
          zstd_NewReader w = (Ok decoder, w') ->
          seekable_NewReader (FileReader file) decoder w' = (Err e, w'') ->
          snd (Open name flags s)
          = {| world := w'';
               calls := calls s ++ [CallOsOpen name; CallZstdNewReader;
                                    CallSeekableNewReader (FileReader file)
                                                          decoder] |})).
Proof.
  split; intros Hscheme; repeat split; intros;
    unfold Open, Open_body, bind, orCantOpen, external, ret; cbn;
    answer; rewrite <- ?app_assoc; reflexivity.
Qed.

Lemma substring_app_skip (a b : string) (n m : nat) :
  substring (String.length a + n) m (a ++ b) = substring n m b.
Proof.
  induction a as [|c a IH]; cbn; [reflexivity | exact IH].
Qed.

(** Whether a name ends in a suffix is decided by its last bytes alone. *)
Lemma HasSuffix_app (front name suffix : string) :
  (String.length suffix <= String.length name)%nat ->
  HasSuffix (front ++ name) suffix = HasSuffix name suffix.
Proof.
  intros Hlen. unfold HasSuffix. rewrite length_app.
  replace (String.length front + String.length name - String.length suffix)%nat
    with (String.length front
          + (String.length name - String.length suffix))%nat by lia.
  rewrite substring_app_skip.
  destruct (Nat.leb_spec (String.length suffix) (String.length name)); [|lia].
  destruct (Nat.leb_spec (String.length suffix)
                         (String.length front + String.length name));
    [reflexivity | lia].
Qed.

(** X11: the answer of [Access] is decided by the end of the name alone.
    Putting anything in front of a name of eight bytes or more (a
    directory, a URL prefix) does not change the answer, and neither do
    the access flags. *)
Theorem Access_depends_on_the_end_only
    (front name : string) (flags1 flags2 : AccessFlag) :
  (8 <= String.length name)%nat ->
  Access (front ++ name) flags1 = Access name flags2.
Proof.
  intros Hlen. unfold Access.
  rewrite !HasSuffix_app by (cbn; lia). reflexivity.
Qed.

Lemma Access_depends_on_the_end_only_witness :
  Access ("http://example.com/" ++ "test.sqlite-wal") 1 = Access "test.sqlite-wal" 0.
Proof.
  apply (Access_depends_on_the_end_only "http://example.com/" "test.sqlite-wal" 1 0).
  cbn; lia.
Defined.

(** X12: an error of the source is passed on as it is.  When the
    positional read behind a [Read] reports an error, [Read] returns that
    very error (never [io.EOF] in its place, even at [Size]) together
    with the bytes the source did return, and the offset has advanced by
    exactly those bytes, so that a later [Read] goes on behind them. *)
Theorem Read_passes_source_error_on {T : Type} `{ReaderAtContract T}
    (r : ReadSeeker T) (p data : list Byte.byte) (src' : T) (e : error) :
  cursor_ok r -> offset r < Size r -> p <> [] ->
  ReadAt (ReaderAt r) (request r p) (offset r) = (src', (data, Some e)) ->
  Read r p
  = Some ((len data, Some e),
          (data, {| ReaderAt := src'; Size := Size r;
                    offset := offset r + len data |}))
  /\ offset r + len data <= Size r.
Proof.
  intros Hok Hin Hp Hcall. pose proof Hok as [Hrange Hoff].
  unfold int64_range in Hrange.
  pose proof (ReadAt_at_most _ _ _ _ _ _ Hcall) as Hmost.
  rewrite len_request in Hmost by assumption.
  pose proof (len_nonneg data).
  rewrite Read_before_Size by assumption. rewrite Hcall.
  rewrite wrap64_id by (unfold int64_range; lia).
  split; [reflexivity | lia].
Qed.

Lemma Read_passes_source_error_on_witness :
  Read (cursor_over test_source 9) (buffer 7)
  = Some ((5, Some EOF),
          (test_source, {| ReaderAt := test_source; Size := 9; offset := 0 + 5 |}))
  /\ 0 + len test_source <= 9.
Proof.
  apply (Read_passes_source_error_on
           (cursor_over test_source 9) (buffer 7) test_source test_source EOF).
  - unfold cursor_ok, int64_range; cbn; lia.
  - cbn; lia.
  - discriminate.
  - reflexivity.
Defined.
